(** * bot-server.js: the tabular Q-learning core of the bot server

    A shallow embedding of [src/bot-server.js]: the discretizer
    ([discretize]), the value table ([qtable], [ensureState]), the policy
    ([chooseAction]), the learner ([updateQ]), the per-socket memory
    ([ws._botState]), the message handler ([ws.on('message')]) and the decay
    of the exploration rate, followed by the properties proved about them.
    State is passed explicitly: the process holds the table and the
    exploration rate, a socket holds its pending decisions and what was sent
    on it, and the handler is given the draws of [Math.random()] and the
    clock.  The HTTP endpoints, the files and the sockets themselves are
    outside the model.

    Numbers.  A JavaScript number is an IEEE-754 double.  Here a number is
    [NaN], one of the two infinities, or an exact rational ([Qc]): the
    special values and every comparison and coercion rule of the language
    are kept, rounding error and overflow of finite arithmetic are not, and
    the two zeros are one (the program never observes the sign of a zero:
    it neither divides by a variable nor prints a number other than a
    bucket).

    Messages.  A message is taken after [JSON.parse], with the fields the
    header of the file declares: a numeric field holds a number or is
    missing, a bot id holds a string or is missing, and the two flags of an
    observation hold any JSON scalar. *)

From Stdlib Require Import QArith Qcanon Qround.
From stdpp Require Import gmap strings list fin_maps numbers pretty.

Local Open Scope Qc_scope.

(** ** Numbers *)

Inductive num : Type :=
  | NaN
  | NInf
  | PInf
  | Fin (q : Qc).

#[global] Instance num_eq_dec : EqDecision num.
Proof. solve_decision. Defined.

#[global] Instance num_inhabited : Inhabited num := populate (Fin 0).

Definition Qc_of (n : Z) (d : positive) : Qc := Q2Qc (n # d).

Definition num_of_Z (n : Z) : num := Fin (Qc_of n 1).

Definition is_nan (x : num) : bool :=
  match x with NaN => true | _ => false end.

Definition is_finite (x : num) : bool :=
  match x with Fin _ => true | _ => false end.

(** [Qccompare] decides the order of two rationals. *)
Definition Qc_ltb (a b : Qc) : bool :=
  match a ?= b with Lt => true | _ => false end.

Definition Qc_eqb (a b : Qc) : bool :=
  match a ?= b with Eq => true | _ => false end.

(** [x < y]: false as soon as one side is NaN. *)
Definition num_lt (x y : num) : bool :=
  match x, y with
  | NaN, _ | _, NaN => false
  | _, NInf => false
  | NInf, _ => true
  | PInf, _ => false
  | _, PInf => true
  | Fin a, Fin b => Qc_ltb a b
  end.

(** [x > y] *)
Definition num_gt (x y : num) : bool := num_lt y x.

(** [x <= y]: false as soon as one side is NaN. *)
Definition num_le (x y : num) : bool :=
  match x, y with
  | NaN, _ | _, NaN => false
  | _, _ => negb (num_lt y x)
  end.

Definition num_neg (x : num) : num :=
  match x with
  | NaN => NaN
  | NInf => PInf
  | PInf => NInf
  | Fin a => Fin (- a)
  end.

(** [x + y]; the sum of the two infinities is NaN. *)
Definition num_add (x y : num) : num :=
  match x, y with
  | NaN, _ | _, NaN => NaN
  | PInf, NInf | NInf, PInf => NaN
  | PInf, _ | _, PInf => PInf
  | NInf, _ | _, NInf => NInf
  | Fin a, Fin b => Fin (a + b)
  end.

(** [x - y] *)
Definition num_sub (x y : num) : num := num_add x (num_neg y).

(** The product of an infinity and a finite [a]: NaN at zero, else by sign. *)
Definition inf_times (positive_inf : bool) (a : Qc) : num :=
  if Qc_eqb a 0 then NaN
  else if Bool.eqb positive_inf (Qc_ltb 0 a) then PInf else NInf.

(** [x * y] *)
Definition num_mul (x y : num) : num :=
  match x, y with
  | NaN, _ | _, NaN => NaN
  | PInf, PInf | NInf, NInf => PInf
  | PInf, NInf | NInf, PInf => NInf
  | PInf, Fin a | Fin a, PInf => inf_times true a
  | NInf, Fin a | Fin a, NInf => inf_times false a
  | Fin a, Fin b => Fin (a * b)
  end.

(** [x / y].  A zero divisor is the positive zero. *)
Definition num_div (x y : num) : num :=
  match x, y with
  | NaN, _ | _, NaN => NaN
  | Fin a, Fin b =>
      if Qc_eqb b 0
      then (if Qc_eqb a 0 then NaN else if Qc_ltb 0 a then PInf else NInf)
      else Fin (a / b)
  | Fin _, _ => Fin 0
  | _, Fin b => match x with
                | PInf => if Qc_ltb b 0 then NInf else PInf
                | _ => if Qc_ltb b 0 then PInf else NInf
                end
  | _, _ => NaN
  end.

(** Truthiness of a number (the test of [||], [&&], [!] and [? :]):
    every number but zero and NaN. *)
Definition num_truthy (x : num) : bool :=
  match x with
  | NaN => false
  | Fin a => negb (Qc_eqb a 0)
  | _ => true
  end.

(** [Math.floor] *)
Definition Math_floor (x : num) : num :=
  match x with
  | Fin a => num_of_Z (Qfloor a)
  | _ => x
  end.

(** [Math.round]: the nearest integer, a tie going up. *)
Definition Math_round (x : num) : num :=
  match x with
  | Fin a => num_of_Z (Qfloor (a + Qc_of 1 2))
  | _ => x
  end.

(** [Math.max(x, y)]: NaN as soon as one argument is. *)
Definition Math_max2 (x y : num) : num :=
  match x, y with
  | NaN, _ | _, NaN => NaN
  | _, _ => if num_lt x y then y else x
  end.

(** [Math.min(x, y)] *)
Definition Math_min2 (x y : num) : num :=
  match x, y with
  | NaN, _ | _, NaN => NaN
  | _, _ => if num_lt y x then y else x
  end.

(** [Math.max(...xs)]: the largest argument, [-Infinity] for none. *)
Definition Math_max (xs : list num) : num := foldl Math_max2 NInf xs.

Local Close Scope Qc_scope.

(** ** Message fields *)

(** A JSON scalar in a field that is only tested for truthiness
    ([inZone], [hasKnife]). *)
Inductive jsval : Type :=
  | JUndefined
  | JNull
  | JBool (b : bool)
  | JNum (x : num)
  | JStr (s : string).

Definition truthy (v : jsval) : bool :=
  match v with
  | JUndefined | JNull => false
  | JBool b => b
  | JNum x => num_truthy x
  | JStr s => negb (String.eqb s "")
  end.

(** A numeric field ([hp], [ammo], [dist], [reward]) holds a number, or is
    missing or null: [None].  [field || d] on such a field. *)
Definition num_or (field : option num) (d : num) : num :=
  match field with
  | Some x => if num_truthy x then x else d
  | None => d
  end.

(** [obs]: the record an observation carries.  [msg.obs || {}] turns a
    missing one into [empty_obs]. *)
Record Obs : Type := mkObs {
  hp : option num;
  ammo : option num;
  dist : option num;
  inZone : jsval;
  hasKnife : jsval;
}.

Definition empty_obs : Obs :=
  {| hp := None; ammo := None; dist := None;
     inZone := JUndefined; hasKnife := JUndefined |}.

Definition obs_or_empty (o : option Obs) : Obs := default empty_obs o.

(** ** Discretizer *)

(** [Math.floor(Math.max(0, Math.min(100, Math.round(obs.hp || 0))) / 25)] *)
Definition hpBucket (obs : Obs) : num :=
  let hp := Math_max2 (num_of_Z 0)
              (Math_min2 (num_of_Z 100) (Math_round (num_or (hp obs) (num_of_Z 0)))) in
  Math_floor (num_div hp (num_of_Z 25)).

(** [(obs.ammo && obs.ammo > 0) ? 1 : 0] *)
Definition ammoBucket (obs : Obs) : num :=
  match ammo obs with
  | Some x => if num_truthy x && num_gt x (num_of_Z 0) then num_of_Z 1 else num_of_Z 0
  | None => num_of_Z 0
  end.

(** [Math.min(4, Math.floor(Math.max(0, Math.round(obs.dist || 999)) / 20))] *)
Definition distBucket (obs : Obs) : num :=
  let dist := Math_max2 (num_of_Z 0) (Math_round (num_or (dist obs) (num_of_Z 999))) in
  Math_min2 (num_of_Z 4) (Math_floor (num_div dist (num_of_Z 20))).

Definition zone (obs : Obs) : num :=
  if truthy (inZone obs) then num_of_Z 1 else num_of_Z 0.

Definition knife (obs : Obs) : num :=
  if truthy (hasKnife obs) then num_of_Z 1 else num_of_Z 0.

(** The text of a number inside a template literal.  A bucket is an integer
    ([discretize_shape] below); an integer prints in decimal and the three
    special values by name.  Of a fraction, which no bucket is, the integer
    part is printed. *)
Definition NumberToString (x : num) : string :=
  match x with
  | NaN => "NaN"
  | PInf => "Infinity"
  | NInf => "-Infinity"
  | Fin a => pretty (Qfloor a)
  end.

Definition discretize (obs : Obs) : string :=
  NumberToString (hpBucket obs) +:+ "|" +:+
  NumberToString (ammoBucket obs) +:+ "|" +:+
  NumberToString (distBucket obs) +:+ "|" +:+
  NumberToString (zone obs) +:+ "|" +:+
  NumberToString (knife obs).

(** ** Value table *)

Definition ACTIONS : list string :=
  ["MOVE_TO_PLAYER"; "MOVE_RANDOM"; "SHOOT"; "PICK_CRATE"; "RETREAT"; "IDLE"].

(** [qtable]: [{ stateKey: [q0,q1,q2,...] }].  The object is read and
    written under keys made by [discretize] only; such a key holds a ['|']
    and names no property of [Object.prototype], so the object is the finite
    map of its own properties.  A row is an array, which is truthy. *)
Abbreviation QTable := (gmap string (list num)).

(** [Array(ACTIONS.length).fill(0)] *)
Definition zero_row : list num := replicate (length ACTIONS) (num_of_Z 0).

(** [if (!qtable[key]) qtable[key] = Array(ACTIONS.length).fill(0)] *)
Definition ensureState (key : string) (qtable : QTable) : QTable :=
  match qtable !! key with
  | Some _ => qtable
  | None => <[key := zero_row]> qtable
  end.

(** [row[i]] read as a number: past the end the read is [undefined], which
    the arithmetic, the comparison and [Math.max] of this program all take
    as NaN. *)
Definition array_get (row : list num) (i : nat) : num := default NaN (row !! i).

(** [row[i] = v]: in range the entry is replaced; past the end the array
    grows to length [i + 1], the new slots before [i] being holes, which
    read as [undefined], that is as NaN above. *)
Definition array_set (row : list num) (i : nat) (v : num) : list num :=
  if decide (i < length row) then <[i := v]> row
  else row ++ replicate (i - length row) NaN ++ [v].

(** ** Policy *)

(** The loop of [chooseAction]:
    [for (i = 0; i < qvals.length; i++)
       if (qvals[i] > bestV) { bestV = qvals[i]; bestIdx = i; }],
    run on the entries from index [i] on. *)
Fixpoint scan (qvals : list num) (i bestIdx : nat) (bestV : num) : nat :=
  match qvals with
  | [] => bestIdx
  | v :: rest =>
      if num_gt v bestV then scan rest (S i) i v
      else scan rest (S i) bestIdx bestV
  end.

(** [Math.floor(u * ACTIONS.length)] as an index, for a draw [u] of
    [Math.random()], a rational of [0, 1). *)
Definition random_index (u : Qc) : nat :=
  Z.to_nat (Qfloor (u * Qc_of (Z.of_nat (length ACTIONS)) 1)%Qc).

(** [chooseAction(key)], given the exploration rate and the two draws of
    [Math.random()] it may make; it returns the index and the table, which
    [ensureState] may have extended. *)
Definition chooseAction (key : string) (u1 u2 : Qc) (EPSILON : num)
    (qtable : QTable) : nat * QTable :=
  let qtable := ensureState key qtable in
  if num_lt (Fin u1) EPSILON then (random_index u2, qtable)
  else (scan (qtable !!! key) 0 0 NInf, qtable).

(** ** Learner *)

Section Learner.
(** The hyperparameters, fixed when the process starts
    ([parseFloat(process.env.ALPHA) || 0.12] and the like). *)
Variables ALPHA GAMMA : num.

(** [qsa + ALPHA * (r + GAMMA * maxNext - qsa)] *)
Definition td_target (qsa r maxNext : num) : num :=
  num_add qsa
    (num_mul ALPHA (num_sub (num_add r (num_mul GAMMA maxNext)) qsa)).

Definition updateQ (s : string) (a : nat) (r : num) (sNext : string)
    (qtable : QTable) : QTable :=
  let qtable := ensureState sNext (ensureState s qtable) in
  let qsa := array_get (qtable !!! s) a in
  let maxNext := Math_max (qtable !!! sNext) in
  <[s := array_set (qtable !!! s) a (td_target qsa r maxNext)]> qtable.
End Learner.

(** The defaults of the two hyperparameters and of the exploration rate. *)
Definition ALPHA_default : num := Fin (Qc_of 12 100).
Definition GAMMA_default : num := Fin (Qc_of 96 100).
Definition EPSILON_default : num := Fin (Qc_of 25 100).

(** ** Exploration-rate decay *)

(** [EPSILON = Math.max(0.01, EPSILON * 0.9995)] *)
Definition EPSILON_floor : Qc := Qc_of 1 100.
Definition EPSILON_decay : Qc := Qc_of 9995 10000.

Definition decay (EPSILON : num) : num :=
  Math_max2 (Fin EPSILON_floor) (num_mul EPSILON (Fin EPSILON_decay)).

(** The rate after [n] runs of the periodic timer. *)
Definition ticks (n : nat) (EPSILON : num) : num := Nat.iter n decay EPSILON.

(** ** Per-socket memory *)

(** [{ state, actionIdx, lastObsAt }] *)
Record Decision : Type := mkDecision {
  state : string;
  actionIdx : nat;
  lastObsAt : Z;
}.

#[global] Instance Decision_eq_dec : EqDecision Decision.
Proof. solve_decision. Defined.

(** [ws._botState]: an object made by [{}] and indexed by the bot id, a
    string the client chooses.  Its own properties are the decisions stored
    under ordinary ids.  The id ["__proto__"] is not an own property: it
    names the accessor of [Object.prototype], so an assignment under it
    replaces the prototype of the object by the decision assigned, a read
    under it returns the prototype, and [delete] leaves it alone.  [proto]
    is the decision installed as prototype, [None] while the prototype is
    [Object.prototype]. *)
Record BotState : Type := mkBotState {
  own : gmap string Decision;
  proto : option Decision;
}.

#[global] Instance BotState_eq_dec : EqDecision BotState.
Proof. solve_decision. Defined.

(** [ws._botState = ws._botState || {}] on a new socket. *)
Definition empty_botState : BotState := {| own := ∅; proto := None |}.

(** What [ws._botState[botId]] evaluates to: a stored decision, [undefined],
    or a value found on the prototype chain that is no decision (a method of
    [Object.prototype], [Object.prototype] itself, or a field of the
    decision installed as prototype). *)
Inductive Slot : Type :=
  | SlotUndefined
  | SlotDecision (rec : Decision)
  | SlotInherited.

Definition object_prototype_keys : list string :=
  ["constructor"; "hasOwnProperty"; "isPrototypeOf"; "propertyIsEnumerable";
   "toLocaleString"; "toString"; "valueOf"; "__defineGetter__";
   "__defineSetter__"; "__lookupGetter__"; "__lookupSetter__"].

Definition decision_keys : list string := ["state"; "actionIdx"; "lastObsAt"].

(** [ws._botState[botId]] *)
Definition bot_get (bs : BotState) (botId : string) : Slot :=
  match own bs !! botId with
  | Some rec => SlotDecision rec
  | None =>
      if String.eqb botId "__proto__" then
        match proto bs with
        | Some rec => SlotDecision rec
        | None => SlotInherited
        end
      else if bool_decide (botId ∈ object_prototype_keys) then SlotInherited
      else if bool_decide (botId ∈ decision_keys) then
        match proto bs with
        | Some _ => SlotInherited
        | None => SlotUndefined
        end
      else SlotUndefined
  end.

(** [rec && typeof rec.actionIdx !== 'undefined']: of the values [bot_get]
    returns, only a decision has an [actionIdx]. *)
Definition pending (rec : Slot) : option Decision :=
  match rec with
  | SlotDecision d => Some d
  | _ => None
  end.

(** [ws._botState[botId] = rec] *)
Definition bot_set (bs : BotState) (botId : string) (rec : Decision) : BotState :=
  match own bs !! botId with
  | Some _ => {| own := <[botId := rec]> (own bs); proto := proto bs |}
  | None =>
      if String.eqb botId "__proto__"
      then {| own := own bs; proto := Some rec |}
      else {| own := <[botId := rec]> (own bs); proto := proto bs |}
  end.

(** [delete ws._botState[botId]]: own properties only. *)
Definition bot_delete (bs : BotState) (botId : string) : BotState :=
  {| own := delete botId (own bs); proto := proto bs |}.

(** ** Coordinator *)

(** A parsed message, by its [type]; [Other_msg] is any other object. *)
Inductive Msg : Type :=
  | Obs_msg (botId : option string) (obs : option Obs)
  | Reward_msg (botId : option string) (reward : option num) (nextObs : option Obs)
  | Save_msg
  | Ping_msg
  | Other_msg.

(** What [ws.send] is given. *)
Inductive Out : Type :=
  | Action_out (botId : string) (action : option string)
  | Ok_out
  | Pong_out.

#[global] Instance Out_eq_dec : EqDecision Out.
Proof. solve_decision. Defined.

(** The state of the process and of one socket. *)
Record Server : Type := mkServer {
  qtable : QTable;
  EPSILON : num;
}.

Record Conn : Type := mkConn {
  botState : BotState;
  sent : list Out;
}.

(** What the handler reads from outside: the two draws of [Math.random()]
    and [Date.now()]. *)
Record Env : Type := mkEnv {
  random1 : Qc;
  random2 : Qc;
  now : Z;
}.

(** [String(msg.botId || 'unknown')], the id being a string when present. *)
Definition bot_id (botId : option string) : string :=
  match botId with
  | Some s => if String.eqb s "" then "unknown" else s
  | None => "unknown"
  end.

(** [Number(msg.reward || 0)] *)
Definition reward_of (reward : option num) : num := num_or reward (num_of_Z 0).

Section Coordinator.
Variables ALPHA GAMMA : num.

(** The body of [ws.on('message', ...)] after [JSON.parse]. *)
Definition on_message (env : Env) (msg : Msg) (srv : Server) (ws : Conn)
    : Server * Conn :=
  match msg with
  | Obs_msg b o =>
      let botId := bot_id b in
      let obs := obs_or_empty o in
      let stateKey := discretize obs in
      let choice :=
        chooseAction stateKey (random1 env) (random2 env)
          (EPSILON srv) (qtable srv) in
      let idx := choice.1 in
      ({| qtable := choice.2; EPSILON := EPSILON srv |},
       {| botState :=
            bot_set (botState ws) botId
              {| state := stateKey; actionIdx := idx; lastObsAt := now env |};
          sent := sent ws ++ [Action_out botId (ACTIONS !! idx)] |})
  | Reward_msg b r o =>
      let botId := bot_id b in
      let reward := reward_of r in
      let nextObs := obs_or_empty o in
      match pending (bot_get (botState ws) botId) with
      | Some rec =>
          let nextKey := discretize nextObs in
          ({| qtable :=
                updateQ ALPHA GAMMA (state rec) (actionIdx rec) reward nextKey
                  (qtable srv);
              EPSILON := EPSILON srv |},
           {| botState := bot_delete (botState ws) botId; sent := sent ws |})
      | None => (srv, ws)
      end
  | Save_msg => (srv, {| botState := botState ws; sent := sent ws ++ [Ok_out] |})
  | Ping_msg => (srv, {| botState := botState ws; sent := sent ws ++ [Pong_out] |})
  | Other_msg => (srv, ws)
  end.
End Coordinator.

(** The periodic timer: the table is written out and the rate decays. *)
Definition on_timer (srv : Server) : Server :=
  {| qtable := qtable srv; EPSILON := decay (EPSILON srv) |}.

(** ** Notions the properties are stated with *)

Definition not_nan (x : num) : Prop := is_nan x = false.

(** The row of [key] once [ensureState(key)] has run. *)
Definition row_of (qtable : QTable) (key : string) : list num :=
  default zero_row (qtable !! key).


(** The larger of two rationals, as [Math.max] returns it. *)
Definition Qc_max (a b : Qc) : Qc := if Qc_ltb a b then b else a.

(** An upper bound of [b * b] with six decimals, for bounding a power of
    the decay factor by repeated squaring. *)
Definition square_up (b : Qc) : Qc :=
  Q2Qc (Qceiling (this b * this b * inject_Z 1000000) # 1000000).

(** The invariant of the data model: a row has one value per action, and
    a decision the socket holds names an action. *)
Definition wf_table (qtable : QTable) : Prop :=
  ∀ k row, qtable !! k = Some row → length row = length ACTIONS.

Definition wf_botState (bs : BotState) : Prop :=
  (∀ botId rec, own bs !! botId = Some rec → actionIdx rec < length ACTIONS)
  ∧ (∀ rec, proto bs = Some rec → actionIdx rec < length ACTIONS).

(** A draw of [Math.random()]. *)
Definition unit_draw (u : Qc) : Prop := (0 <= u)%Qc ∧ (u < 1)%Qc.

(** * Properties *)

(** ** The order of numbers *)

Lemma Qc_ltb_lt (a b : Qc) : Qc_ltb a b = true ↔ (a < b)%Qc.
Proof.
  unfold Qc_ltb. rewrite Qclt_alt. destruct (a ?= b)%Qc; split; congruence.
Qed.

Lemma Qc_eqb_eq (a b : Qc) : Qc_eqb a b = true ↔ a = b.
Proof.
  unfold Qc_eqb. rewrite Qceq_alt. destruct (a ?= b)%Qc; split; congruence.
Qed.

Lemma Qc_ltb_irrefl (a : Qc) : Qc_ltb a a = false.
Proof.
  apply not_true_is_false. rewrite Qc_ltb_lt. intros H.
  by apply (Qclt_not_eq a a).
Qed.

Lemma Qc_ltb_trans (a b c : Qc) :
  Qc_ltb a b = true → Qc_ltb b c = true → Qc_ltb a c = true.
Proof. rewrite !Qc_ltb_lt. apply Qclt_trans. Qed.

Lemma Qc_ltb_antisym (a b : Qc) :
  Qc_ltb a b = false → Qc_ltb b a = false → a = b.
Proof.
  intros Hab Hba. apply Qcle_antisym; apply Qcnot_lt_le;
    rewrite <- Qc_ltb_lt; congruence.
Qed.

Lemma Qc_ltb_le_trans (a b c : Qc) :
  Qc_ltb a b = true → Qc_ltb c b = false → Qc_ltb a c = true.
Proof.
  rewrite !Qc_ltb_lt. intros Hab Hcb. apply Qclt_le_trans with b; [done|].
  apply Qcnot_lt_le. rewrite <- Qc_ltb_lt. congruence.
Qed.


Lemma Qc_leb_trans (a b c : Qc) :
  Qc_ltb b a = false → Qc_ltb c b = false → Qc_ltb c a = false.
Proof.
  intros Hba Hcb. apply not_true_is_false. intros Hca.
  pose proof (Qc_ltb_le_trans _ _ _ Hca Hba) as H. congruence.
Qed.


Lemma num_lt_trans (x y z : num) :
  num_lt x y = true → num_lt y z = true → num_lt x z = true.
Proof.
  destruct x, y, z; simpl; try done. apply Qc_ltb_trans.
Qed.

Lemma num_le_refl (x : num) : is_nan x = false → num_le x x = true.
Proof. destruct x; simpl; try done. intros _. by rewrite Qc_ltb_irrefl. Qed.

Lemma num_le_trans (x y z : num) :
  num_le x y = true → num_le y z = true → num_le x z = true.
Proof.
  destruct x, y, z; simpl; try done.
  rewrite !negb_true_iff. intros H1 H2. eapply Qc_leb_trans; eauto.
Qed.

Lemma num_lt_le (x y : num) : num_lt x y = true → num_le x y = true.
Proof.
  destruct x, y; simpl; try done.
  intros H. rewrite negb_true_iff. apply not_true_is_false. intros H'.
  pose proof (Qc_ltb_trans _ _ _ H H') as Hq. by rewrite Qc_ltb_irrefl in Hq.
Qed.

Lemma num_not_lt_le (x y : num) :
  is_nan x = false → is_nan y = false → num_lt x y = false → num_le y x = true.
Proof. destruct x, y; simpl; try done. by intros _ _ ->. Qed.

Lemma num_lt_le_trans (x y z : num) :
  num_lt x y = true → num_le y z = true → num_lt x z = true.
Proof.
  destruct x, y, z; simpl; try done.
  rewrite negb_true_iff. apply Qc_ltb_le_trans.
Qed.


Lemma num_le_antisym (x y : num) :
  num_le x y = true → num_le y x = true → x = y.
Proof.
  destruct x, y; simpl; try done.
  rewrite !negb_true_iff. intros H1 H2. f_equal. by apply Qc_ltb_antisym.
Qed.


Lemma num_le_NInf (x : num) : num_le x NInf = true → x = NInf.
Proof. by destruct x. Qed.

Lemma NInf_le (x : num) : is_nan x = false → num_le NInf x = true.
Proof. by destruct x. Qed.

(** ** Discretizer: the shape of a key *)

Lemma this_Qc_of_Z (n : Z) : this (Qc_of n 1) = inject_Z n.
Proof. unfold Qc_of. simpl. apply inject_Z_Qred. Qed.

Lemma num_lt_of_Z (a b : Z) : num_lt (num_of_Z a) (num_of_Z b) = (a <? b)%Z.
Proof.
  unfold num_of_Z, num_lt, Qc_ltb, Qccompare. rewrite !this_Qc_of_Z.
  unfold Qcompare, inject_Z. simpl. rewrite !Z.mul_1_r.
  unfold Z.ltb. done.
Qed.

Lemma Math_min2_of_Z (a b : Z) :
  Math_min2 (num_of_Z a) (num_of_Z b) = num_of_Z (Z.min a b).
Proof.
  unfold Math_min2. change (num_of_Z a) with (Fin (Qc_of a 1)) at 1.
  change (num_of_Z b) with (Fin (Qc_of b 1)) at 1. cbv iota beta.
  rewrite num_lt_of_Z. destruct (Z.ltb_spec b a).
  - by rewrite Z.min_r by lia.
  - by rewrite Z.min_l by lia.
Qed.

Lemma Math_max2_of_Z (a b : Z) :
  Math_max2 (num_of_Z a) (num_of_Z b) = num_of_Z (Z.max a b).
Proof.
  unfold Math_max2. change (num_of_Z a) with (Fin (Qc_of a 1)) at 1.
  change (num_of_Z b) with (Fin (Qc_of b 1)) at 1. cbv iota beta.
  rewrite num_lt_of_Z. destruct (Z.ltb_spec a b).
  - by rewrite Z.max_r by lia.
  - by rewrite Z.max_l by lia.
Qed.

Lemma floor_div_of_Z (n : Z) (d : positive) :
  Math_floor (num_div (num_of_Z n) (num_of_Z (Z.pos d))) = num_of_Z (n / Z.pos d).
Proof.
  unfold num_div, num_of_Z.
  assert (Qc_eqb (Qc_of (Z.pos d) 1) 0 = false) as ->.
  { apply not_true_is_false. rewrite Qc_eqb_eq. intros H.
    apply (f_equal this) in H. rewrite this_Qc_of_Z in H. done. }
  simpl Math_floor. unfold num_of_Z. do 2 f_equal.
  rewrite Zdiv_Qdiv. apply Qfloor_comp.
  unfold Qcdiv, Qcmult, Qcinv. simpl this.
  rewrite !Qred_correct. reflexivity.
Qed.

Lemma num_or_cases (field : option num) (d : num) :
  is_nan d = false →
  num_or field d = PInf ∨ num_or field d = NInf ∨ ∃ q, num_or field d = Fin q.
Proof.
  intros Hd. unfold num_or. destruct field as [[| | |q]|]; simpl; eauto.
  - destruct d; eauto; done.
  - destruct (negb (Qc_eqb q 0)); eauto. destruct d; eauto; done.
  - destruct d; eauto; done.
Qed.

Lemma hpBucket_range (obs : Obs) :
  ∃ b : Z, (0 ≤ b ≤ 4)%Z ∧ hpBucket obs = num_of_Z b.
Proof.
  unfold hpBucket.
  destruct (num_or_cases (hp obs) (num_of_Z 0) eq_refl) as [-> | [-> | [q ->]]].
  - exists 4%Z. split; [lia | compute_done].
  - exists 0%Z. split; [lia | compute_done].
  - unfold Math_round. rewrite Math_min2_of_Z, Math_max2_of_Z.
    rewrite (floor_div_of_Z _ 25). eexists. split; [|done].
    split; [apply Z.div_pos; lia | apply Z.div_le_upper_bound; lia].
Qed.

Lemma distBucket_range (obs : Obs) :
  ∃ b : Z, (0 ≤ b ≤ 4)%Z ∧ distBucket obs = num_of_Z b.
Proof.
  unfold distBucket.
  destruct (num_or_cases (dist obs) (num_of_Z 999) eq_refl) as [-> | [-> | [q ->]]].
  - exists 4%Z. split; [lia | compute_done].
  - exists 0%Z. split; [lia | compute_done].
  - unfold Math_round. rewrite Math_max2_of_Z.
    rewrite (floor_div_of_Z _ 20), Math_min2_of_Z. eexists. split; [|done].
    split; [|lia]. apply Z.min_glb; [lia|]. apply Z.div_pos; lia.
Qed.

Lemma flag_range (obs : Obs) :
  (ammoBucket obs = num_of_Z 0 ∨ ammoBucket obs = num_of_Z 1)
  ∧ (zone obs = num_of_Z 0 ∨ zone obs = num_of_Z 1)
  ∧ (knife obs = num_of_Z 0 ∨ knife obs = num_of_Z 1).
Proof.
  unfold ammoBucket, zone, knife. repeat apply conj.
  - destruct (ammo obs) as [x|]; [|by left].
    destruct (num_truthy x && num_gt x (num_of_Z 0)); eauto.
  - destruct (truthy (inZone obs)); eauto.
  - destruct (truthy (hasKnife obs)); eauto.
Qed.

Lemma NumberToString_of_Z (n : Z) : NumberToString (num_of_Z n) = pretty n.
Proof.
  unfold NumberToString, num_of_Z. rewrite this_Qc_of_Z. by rewrite Qfloor_Z.
Qed.

(** Every key is five integers joined by ['|']: the health and distance
    buckets in 0..4, the three flags 0 or 1. *)
Lemma discretize_shape (obs : Obs) :
  ∃ h a d z k : Z,
    (0 ≤ h ≤ 4 ∧ 0 ≤ a ≤ 1 ∧ 0 ≤ d ≤ 4 ∧ 0 ≤ z ≤ 1 ∧ 0 ≤ k ≤ 1)%Z
    ∧ discretize obs
      = pretty h +:+ "|" +:+ pretty a +:+ "|" +:+ pretty d +:+ "|" +:+
        pretty z +:+ "|" +:+ pretty k.
Proof.
  destruct (hpBucket_range obs) as (h & Hh & Hhp).
  destruct (distBucket_range obs) as (d & Hd & Hdist).
  destruct (flag_range obs) as (Ha & Hz & Hk).
  assert (∃ a : Z, (0 ≤ a ≤ 1)%Z ∧ ammoBucket obs = num_of_Z a) as (a & ? & Ha')
    by (destruct Ha; [exists 0%Z | exists 1%Z]; split; done || lia).
  assert (∃ z : Z, (0 ≤ z ≤ 1)%Z ∧ zone obs = num_of_Z z) as (z & ? & Hz')
    by (destruct Hz; [exists 0%Z | exists 1%Z]; split; done || lia).
  assert (∃ k : Z, (0 ≤ k ≤ 1)%Z ∧ knife obs = num_of_Z k) as (k & ? & Hk')
    by (destruct Hk; [exists 0%Z | exists 1%Z]; split; done || lia).
  exists h, a, d, z, k. split; [lia|].
  unfold discretize. rewrite Hhp, Hdist, Ha', Hz', Hk'.
  by rewrite !NumberToString_of_Z.
Qed.

(** ** Discretizer: the distance bucket *)

(** C2 at [dist: 0].  The field is falsy, so [obs.dist || 999] is 999 and
    the bucket is 4, the bucket of a missing distance and of the farthest
    ones, while the distances next to 0 on either side ([-5], [0.4]) are in
    bucket 0. *)
Theorem distBucket_of_distance_zero (hp ammo : option num) (inZone hasKnife : jsval) :
  let bucket_at d :=
    distBucket {| hp := hp; ammo := ammo; dist := d;
                  inZone := inZone; hasKnife := hasKnife |} in
  bucket_at (Some (num_of_Z 0)) = num_of_Z 4
  ∧ bucket_at None = num_of_Z 4
  ∧ bucket_at (Some (num_of_Z (-5))) = num_of_Z 0
  ∧ bucket_at (Some (Fin (Qc_of 4 10))) = num_of_Z 0
  ∧ bucket_at (Some (num_of_Z 5)) = num_of_Z 0.
Proof. repeat apply conj; compute_done. Qed.

(** ** [Math.max] over a row *)

Lemma Math_max2_spec (x y : num) :
  not_nan x → not_nan y →
  (Math_max2 x y = x ∨ Math_max2 x y = y)
  ∧ num_le x (Math_max2 x y) = true ∧ num_le y (Math_max2 x y) = true.
Proof.
  intros Hx Hy. unfold Math_max2.
  destruct (num_lt x y) eqn:Hlt.
  - destruct x, y; try done; repeat split; auto using num_lt_le, num_le_refl.
  - assert (num_le y x = true) by by apply num_not_lt_le.
    destruct x, y; try done; repeat split; auto using num_le_refl.
Qed.

Lemma foldl_max_spec (xs : list num) :
  Forall not_nan xs →
  ∀ acc, not_nan acc →
    (foldl Math_max2 acc xs = acc ∨ foldl Math_max2 acc xs ∈ xs)
    ∧ num_le acc (foldl Math_max2 acc xs) = true
    ∧ Forall (λ x, num_le x (foldl Math_max2 acc xs) = true) xs.
Proof.
  induction 1 as [|x xs Hx Hxs IH]; intros acc Hacc; simpl.
  - repeat split; auto using num_le_refl.
  - destruct (Math_max2_spec acc x Hacc Hx) as (Hm & Hle1 & Hle2).
    assert (not_nan (Math_max2 acc x)) as Hn.
    { destruct Hm as [-> | ->]; done. }
    destruct (IH _ Hn) as (Hin & Hle & Hall).
    split; [|split].
    + destruct Hin as [-> | Hin]; [|right; by apply elem_of_cons; right].
      destruct Hm as [-> | ->]; [by left | right; apply elem_of_cons; by left].
    + eauto using num_le_trans.
    + constructor; eauto using num_le_trans.
Qed.

(** On a row without NaN that is not empty, [Math.max(...row)] is an entry
    of the row and no entry is above it. *)
Lemma Math_max_spec (row : list num) :
  Forall not_nan row → row ≠ [] →
  Math_max row ∈ row ∧ Forall (λ x, num_le x (Math_max row) = true) row.
Proof.
  intros Hrow Hne. unfold Math_max.
  destruct (foldl_max_spec row Hrow NInf eq_refl) as (Hin & _ & Hall).
  split; [|done].
  destruct Hin as [Heq | Hin]; [|done].
  destruct row as [|x row]; [done|].
  rewrite Heq in Hall |- *. apply Forall_cons in Hall as [Hx _].
  apply num_le_NInf in Hx as ->. apply elem_of_cons. by left.
Qed.

(** ** The rows [ensureState] leaves behind *)

Lemma ensureState_lookup (key : string) (qtable : QTable) :
  ensureState key qtable !! key = Some (row_of qtable key).
Proof.
  unfold ensureState, row_of. destruct (qtable !! key) eqn:Hk; simpl.
  - done.
  - by rewrite lookup_insert_eq.
Qed.

Lemma ensureState_lookup_ne (key k : string) (qtable : QTable) :
  key ≠ k → ensureState key qtable !! k = qtable !! k.
Proof.
  intros Hne. unfold ensureState. destruct (qtable !! key); [done|].
  by rewrite lookup_insert_ne.
Qed.

Lemma ensureState_row_of (key k : string) (qtable : QTable) :
  row_of (ensureState key qtable) k = row_of qtable k.
Proof.
  unfold row_of at 1. destruct (decide (key = k)) as [->|Hne].
  - by rewrite ensureState_lookup.
  - by rewrite ensureState_lookup_ne.
Qed.

Lemma lookup_total_row_of (qtable : QTable) (key : string) :
  is_Some (qtable !! key) → qtable !!! key = row_of qtable key.
Proof.
  intros [row Hrow]. unfold row_of. rewrite lookup_total_alt, Hrow. done.
Qed.

Lemma updateQ_unfold (ALPHA GAMMA : num) (s : string) (a : nat) (r : num)
    (sNext : string) (qtable : QTable) :
  updateQ ALPHA GAMMA s a r sNext qtable =
  <[s := array_set (row_of qtable s) a
           (td_target ALPHA GAMMA (array_get (row_of qtable s) a) r
              (Math_max (row_of qtable sNext)))]>
    (ensureState sNext (ensureState s qtable)).
Proof.
  unfold updateQ.
  assert (ensureState sNext (ensureState s qtable) !!! s = row_of qtable s)
    as ->.
  { rewrite lookup_total_row_of.
    - by rewrite !ensureState_row_of.
    - destruct (decide (sNext = s)) as [->|Hne].
      + rewrite ensureState_lookup. eauto.
      + rewrite ensureState_lookup_ne, ensureState_lookup by done. eauto. }
  assert (ensureState sNext (ensureState s qtable) !!! sNext
          = row_of qtable sNext) as ->.
  { rewrite lookup_total_row_of.
    - by rewrite !ensureState_row_of.
    - rewrite ensureState_lookup. eauto. }
  done.
Qed.

Lemma array_set_in_range (row : list num) (i : nat) (v : num) :
  i < length row → array_set row i v = <[i := v]> row.
Proof. intros Hi. unfold array_set. by rewrite decide_True. Qed.

Lemma row_of_length (qtable : QTable) (key : string) :
  (∀ row, qtable !! key = Some row → length row = length ACTIONS) →
  length (row_of qtable key) = length ACTIONS.
Proof.
  intros Hlen. unfold row_of. destruct (qtable !! key) as [row|]; simpl; auto.
Qed.

(** The entry [updateQ] leaves at [(s, a)], the index in range or not. *)
Lemma updateQ_entry (ALPHA GAMMA : num) (qtable : QTable) (s : string)
    (a : nat) (r : num) (sNext : string) :
  array_get (row_of (updateQ ALPHA GAMMA s a r sNext qtable) s) a
  = td_target ALPHA GAMMA (array_get (row_of qtable s) a) r
      (Math_max (row_of qtable sNext)).
Proof.
  rewrite updateQ_unfold. unfold row_of at 1. rewrite lookup_insert_eq. simpl.
  unfold array_set. unfold array_get at 1. case_decide as Ha.
  - by rewrite list_lookup_insert_eq.
  - rewrite lookup_app_r by lia. rewrite lookup_app_r; rewrite length_replicate;
      [|lia]. by rewrite Nat.sub_diag.
Qed.

(** ** Learner: the update of one entry *)

(** C1.  [updateQ(s, a, r, sNext)], for an action index [a] below
    [ACTIONS.length] and a table whose row of [s], when there is one, has
    that length: the rows of [s] and [sNext] exist afterwards, a row that
    was missing being the zero row; the row of [s] is its former self with
    the entry at [a] replaced by
    [current + ALPHA * (r + GAMMA * bestNext - current)], where [current] is
    the entry that was there and [bestNext] is [Math.max] over the row of
    [sNext]; the row of [sNext], when [sNext] is another key, and every
    other row are as before; and [bestNext] is an entry of the row of
    [sNext] that no entry of it exceeds, when that row holds no NaN. *)
Theorem updateQ_rewrites_one_entry (ALPHA GAMMA : num) (qtable : QTable)
    (s : string) (a : nat) (r : num) (sNext : string) :
  a < length ACTIONS →
  (∀ row, qtable !! s = Some row → length row = length ACTIONS) →
  let row := row_of qtable s in
  let nextRow := row_of qtable sNext in
  let current := array_get row a in
  let bestNext := Math_max nextRow in
  let qtable' := updateQ ALPHA GAMMA s a r sNext qtable in
  (qtable !! s = None → row = replicate (length ACTIONS) (num_of_Z 0))
  ∧ (qtable !! sNext = None → nextRow = replicate (length ACTIONS) (num_of_Z 0))
  ∧ (∀ old, qtable !! s = Some old → row = old)
  ∧ (∀ old, qtable !! sNext = Some old → nextRow = old)
  ∧ row !! a = Some current
  ∧ qtable' !! s =
      Some (<[a := num_add current
                     (num_mul ALPHA
                        (num_sub (num_add r (num_mul GAMMA bestNext)) current))]>
              row)
  ∧ (sNext ≠ s → qtable' !! sNext = Some nextRow)
  ∧ (∀ k, k ≠ s → k ≠ sNext → qtable' !! k = qtable !! k)
  ∧ (Forall not_nan nextRow → nextRow ≠ [] →
     bestNext ∈ nextRow ∧ Forall (λ x, num_le x bestNext = true) nextRow).
Proof.
  intros Ha Hlen row nextRow current bestNext qtable'.
  assert (a < length row) as Harow by (unfold row; by rewrite row_of_length).
  subst qtable'. rewrite updateQ_unfold. fold row nextRow current bestNext.
  repeat split.
  - unfold row, row_of. by intros ->.
  - unfold nextRow, row_of. by intros ->.
  - unfold row, row_of. by intros old ->.
  - unfold nextRow, row_of. by intros old ->.
  - unfold current, array_get.
    destruct (lookup_lt_is_Some_2 row a Harow) as [v ->]. done.
  - rewrite lookup_insert_eq, array_set_in_range by done. done.
  - intros Hne. rewrite lookup_insert_ne by done.
    by rewrite ensureState_lookup, ensureState_row_of.
  - intros k Hs Hn.
    rewrite lookup_insert_ne, !ensureState_lookup_ne by done. done.
  - by apply Math_max_spec.
  - by apply Math_max_spec.
Qed.

(** The update on an empty table, of the first action of ["3|0|0|1|0"],
    with reward 5 and the same key as next state. *)
Lemma updateQ_rewrites_one_entry_witness :
  updateQ ALPHA_default GAMMA_default "3|0|0|1|0" 0 (num_of_Z 5) "3|0|0|1|0" ∅
    !! "3|0|0|1|0"
  = Some (<[0 := num_add (num_of_Z 0)
                   (num_mul ALPHA_default
                      (num_sub
                         (num_add (num_of_Z 5)
                            (num_mul GAMMA_default (Math_max zero_row)))
                         (num_of_Z 0)))]> zero_row).
Proof.
  assert (0 < length ACTIONS) as Ha by (vm_compute; lia).
  assert (∀ row, (∅ : QTable) !! "3|0|0|1|0" = Some row →
                 length row = length ACTIONS) as Hlen
    by (intros row Hrow; vm_compute in Hrow; discriminate Hrow).
  exact (proj1 (proj2 (proj2 (proj2 (proj2 (proj2
    (updateQ_rewrites_one_entry ALPHA_default GAMMA_default ∅ "3|0|0|1|0" 0
       (num_of_Z 5) "3|0|0|1|0" Ha Hlen))))))).
Defined.

(** ** Learner: no drift at equilibrium *)

(** C6, as the code has it.  Take reward 0 and [GAMMA * bestNext] equal to
    the value [current] at [(s, a)].  When the learning rate and [current]
    are both finite, [updateQ] writes that same value back: the entry at
    [(s, a)] is what it was, and the table is the table that the two
    [ensureState] calls left.  Both conditions are needed: when the
    learning rate or [current] is not finite, the difference
    [0 + current - current] or its product with the rate is NaN, and the
    entry written is NaN. *)
Theorem updateQ_equilibrium (ALPHA GAMMA : num) (qtable : QTable)
    (s : string) (a : nat) (sNext : string) (current : num) :
  array_get (row_of qtable s) a = current →
  num_mul GAMMA (Math_max (row_of qtable sNext)) = current →
  let qtable' := updateQ ALPHA GAMMA s a (num_of_Z 0) sNext qtable in
  (is_finite ALPHA = true → is_finite current = true →
   array_get (row_of qtable' s) a = current
   ∧ qtable' = ensureState sNext (ensureState s qtable))
  ∧ (is_finite ALPHA = false ∨ is_finite current = false →
     array_get (row_of qtable' s) a = NaN).
Proof.
  intros Hcur Hnext qtable'. split.
  - intros Halpha Hfin.
    destruct ALPHA as [| | |alpha]; try done.
    destruct current as [| | |current]; try done.
    assert (qtable' = ensureState sNext (ensureState s qtable)) as Heq.
    { subst qtable'. rewrite updateQ_unfold. unfold td_target.
      rewrite Hcur, Hnext. simpl.
      replace (current + alpha * (Qc_of 0 1 + current + - current))%Qc
        with current by (unfold Qc_of; ring).
      rewrite <- Hcur. unfold array_get in Hcur |- *.
      destruct (row_of qtable s !! a) as [v|] eqn:Hv; [|done]. simpl.
      rewrite array_set_in_range by by eapply lookup_lt_Some.
      rewrite list_insert_id by done.
      apply insert_id.
      destruct (decide (sNext = s)) as [->|Hne].
      - by rewrite ensureState_lookup, ensureState_row_of.
      - by rewrite ensureState_lookup_ne, ensureState_lookup. }
    split; [|done].
    by rewrite Heq, !ensureState_row_of.
  - intros Hinf. subst qtable'.
    rewrite updateQ_entry. unfold td_target. rewrite Hcur, Hnext.
    destruct current as [| | |current]; simpl.
    + done.
    + by destruct ALPHA.
    + by destruct ALPHA.
    + replace (Qc_of 0 1 + current + - current)%Qc with (Qc_of 0 1)
        by (unfold Qc_of; ring).
      destruct Hinf as [Hinf|Hinf]; [|done].
      by destruct ALPHA.
Qed.

(** An equilibrium: the value 2 at the first action of ["3|0|0|1|0"], the
    best value 5/2 in the row of ["4|1|0|0|0"], and a discount of 8/10. *)
Lemma updateQ_equilibrium_witness :
  array_get
    (row_of
       (updateQ ALPHA_default (Fin (Qc_of 8 10)) "3|0|0|1|0" 0 (num_of_Z 0)
          "4|1|0|0|0"
          {["3|0|0|1|0" := num_of_Z <$> [2; 0; 0; 0; 0; 0]%Z;
            "4|1|0|0|0" := [num_of_Z 1; Fin (Qc_of 5 2); num_of_Z 0;
                            num_of_Z 0; num_of_Z 0; num_of_Z 0]]})
       "3|0|0|1|0") 0
  = Fin (Qc_of 2 1).
Proof.
  refine (proj1 (proj1 (updateQ_equilibrium ALPHA_default (Fin (Qc_of 8 10))
            {["3|0|0|1|0" := num_of_Z <$> [2; 0; 0; 0; 0; 0]%Z;
              "4|1|0|0|0" := [num_of_Z 1; Fin (Qc_of 5 2); num_of_Z 0;
                              num_of_Z 0; num_of_Z 0; num_of_Z 0]]}
            "3|0|0|1|0" 0 "4|1|0|0|0" (Fin (Qc_of 2 1)) _ _) _ _)).
  - vm_compute. reflexivity.
  - compute_done.
  - reflexivity.
  - reflexivity.
Defined.

(** C6, as stated, fails.  On an empty table with the defaults, bot ["b1"]
    sends an observation, the reward [1e999] (which [JSON.parse] reads as
    [Infinity]), an observation again and the reward 0.  Before the last
    message the entry of the pending decision is [Infinity], and so is
    [GAMMA * bestNext] over the row of the next state: the reward is 0 and
    the two are equal.  The last message runs [updateQ] on them and the
    entry becomes [Infinity + 0.12 * (0 + Infinity - Infinity)], which is
    NaN, so it is not the value it was. *)
Lemma infinite_value_drifts_to_NaN :
  let env := {| random1 := Qc_of 1 2; random2 := Qc_of 1 2; now := 0 |} in
  let handle := on_message ALPHA_default GAMMA_default env in
  let key := "0|0|4|0|0" in
  let after_obs :=
    handle (Obs_msg (Some "b1") None)
      {| qtable := ∅; EPSILON := EPSILON_default |}
      {| botState := empty_botState; sent := [] |} in
  let after_infinity :=
    handle (Reward_msg (Some "b1") (Some PInf) None) after_obs.1 after_obs.2 in
  let before :=
    handle (Obs_msg (Some "b1") None) after_infinity.1 after_infinity.2 in
  let after :=
    handle (Reward_msg (Some "b1") (Some (num_of_Z 0)) None)
      before.1 before.2 in
  pending (bot_get (botState before.2) "b1")
  = Some {| state := key; actionIdx := 0; lastObsAt := 0 |}
  ∧ discretize (obs_or_empty None) = key
  ∧ reward_of (Some (num_of_Z 0)) = num_of_Z 0
  ∧ array_get (row_of (qtable before.1) key) 0 = PInf
  ∧ num_mul GAMMA_default (Math_max (row_of (qtable before.1) key))
    = array_get (row_of (qtable before.1) key) 0
  ∧ qtable after.1
    = updateQ ALPHA_default GAMMA_default key 0 (num_of_Z 0) key
        (qtable before.1)
  ∧ array_get (row_of (qtable after.1) key) 0 = NaN
  ∧ array_get (row_of (qtable after.1) key) 0
    ≠ array_get (row_of (qtable before.1) key) 0.
Proof. repeat apply conj; compute_done. Qed.

(** ** The scan of [chooseAction] *)




(** ** Policy: exploitation *)



(** ** Exploration-rate decay *)

Lemma Math_max2_Fin (a b : Qc) : Math_max2 (Fin a) (Fin b) = Fin (Qc_max a b).
Proof. unfold Math_max2, Qc_max. simpl. by destruct (Qc_ltb a b). Qed.

Lemma Qc_max_le_l (a b : Qc) : (a <= Qc_max a b)%Qc.
Proof.
  unfold Qc_max. destruct (Qc_ltb a b) eqn:Hlt.
  - apply Qclt_le_weak. by apply Qc_ltb_lt.
  - apply Qcle_refl.
Qed.

Lemma Qc_max_absorb (a b : Qc) : (b <= a)%Qc → Qc_max a b = a.
Proof.
  intros Hle. unfold Qc_max. destruct (Qc_ltb a b) eqn:Hlt; [|done].
  apply Qc_ltb_lt in Hlt. by destruct (Qcle_not_lt _ _ Hle).
Qed.

Lemma Qc_max_r (a b : Qc) : (a <= b)%Qc → Qc_max a b = b.
Proof.
  intros Hle. unfold Qc_max. destruct (Qc_ltb a b) eqn:Hlt; [done|].
  apply Qcle_antisym; [done|].
  apply Qcnot_lt_le. rewrite <- Qc_ltb_lt. congruence.
Qed.

(** A rate at or below the floor stays there after decay. *)
Lemma decay_below_floor (y : Qc) :
  (y <= EPSILON_floor)%Qc → (y * EPSILON_decay <= EPSILON_floor)%Qc.
Proof.
  intros Hy. destruct (Qclt_le_dec y 0) as [Hneg | Hpos].
  - apply Qclt_le_weak, Qclt_trans with 0%Qc; [|by vm_compute].
    replace 0%Qc with (0 * EPSILON_decay)%Qc by ring.
    apply Qcmult_lt_compat_r; [by vm_compute | done].
  - apply Qcle_trans with y; [|done].
    rewrite Qcmult_comm. replace y with (1 * y)%Qc at 2 by ring.
    apply Qcmult_le_compat_r; [|done]. vm_compute. discriminate.
Qed.

Lemma decay_max (y : Qc) :
  Qc_max EPSILON_floor (Qc_max EPSILON_floor y * EPSILON_decay)
  = Qc_max EPSILON_floor (y * EPSILON_decay).
Proof.
  destruct (Qclt_le_dec y EPSILON_floor) as [Hlt | Hge].
  - rewrite (Qc_max_absorb _ y) by by apply Qclt_le_weak.
    rewrite !Qc_max_absorb; [done | |].
    + by apply decay_below_floor, Qclt_le_weak.
    + apply decay_below_floor, Qcle_refl.
  - by rewrite (Qc_max_r _ y).
Qed.

(** The rate after [n] timer runs, from a finite rate: after one run at
    least, or from a rate at or above the floor. *)
Lemma ticks_closed_form (n : nat) (initial : Qc) :
  (EPSILON_floor <= initial)%Qc ∨ 0 < n →
  ticks n (Fin initial)
  = Fin (Qc_max EPSILON_floor (initial * EPSILON_decay ^ n)).
Proof.
  induction n as [|n IH]; intros Hn.
  - destruct Hn as [Hinit|?]; [|lia].
    simpl. rewrite Qcmult_1_r. by rewrite Qc_max_r.
  - unfold ticks in IH |- *. simpl Nat.iter. unfold decay at 1.
    destruct n as [|n].
    + simpl Nat.iter. simpl num_mul. rewrite Math_max2_Fin.
      replace (EPSILON_decay ^ 1)%Qc with EPSILON_decay
        by (simpl Qcpower; ring).
      done.
    + rewrite IH by (right; lia).
      simpl num_mul. rewrite Math_max2_Fin, decay_max. do 2 f_equal.
      simpl Qcpower. ring.
Qed.

(** C7, as the code has it.  From a finite rate, after [n] timer runs the
    rate is [max(0.01, initial * 0.9995^n)] and is not below the floor 0.01,
    provided one run at least has happened or the rate started at or above
    the floor; the rate does reach the floor ([decay_reaches_floor]). *)
Theorem decay_closed_form (n : nat) (initial : Qc) :
  (EPSILON_floor <= initial)%Qc ∨ 0 < n →
  ticks n (Fin initial)
  = Fin (Qc_max EPSILON_floor (initial * EPSILON_decay ^ n))
  ∧ num_le (Fin EPSILON_floor) (ticks n (Fin initial)) = true.
Proof.
  intros Hn. rewrite ticks_closed_form by done. split; [done|].
  simpl. rewrite negb_true_iff.
  apply not_true_is_false. rewrite Qc_ltb_lt. apply Qcle_not_lt, Qc_max_le_l.
Qed.

(** The default rate 0.25 after three timer runs. *)
Lemma decay_closed_form_witness :
  ticks 3 EPSILON_default
  = Fin (Qc_max EPSILON_floor (Qc_of 25 100 * EPSILON_decay ^ 3)).
Proof.
  refine (proj1 (decay_closed_form 3 (Qc_of 25 100) _)).
  left. vm_compute. discriminate.
Defined.

(** *** The floor is reached *)

Lemma Qcpower_add (x : Qc) (n m : nat) : (x ^ (n + m) = x ^ n * x ^ m)%Qc.
Proof. induction n as [|n IH]; simpl; [ring | rewrite IH; ring]. Qed.

Lemma square_up_ge (b : Qc) : (b * b <= square_up b)%Qc.
Proof.
  unfold Qcle, square_up. simpl. rewrite !Qred_correct.
  set (y := (this b * this b)%Q).
  rewrite (Qmake_Qdiv (Qceiling (y * inject_Z 1000000)) 1000000).
  apply Qle_shift_div_l; [done|].
  apply Qle_ceiling.
Qed.

Lemma square_le (x b : Qc) : (0 <= x)%Qc → (x <= b)%Qc → (x * x <= b * b)%Qc.
Proof.
  intros H0 Hxb. apply Qcle_trans with (x * b)%Qc.
  - rewrite (Qcmult_comm x b). by apply Qcmult_le_compat_r.
  - apply Qcmult_le_compat_r; [done|]. by apply Qcle_trans with x.
Qed.

Lemma power_chain (k : nat) :
  (0 <= EPSILON_decay ^ (2 ^ k))%Qc
  ∧ (EPSILON_decay ^ (2 ^ k) <= Nat.iter k square_up EPSILON_decay)%Qc.
Proof.
  induction k as [|k [IH0 IH]].
  - simpl. rewrite Qcmult_1_r. split; [by vm_compute | apply Qcle_refl].
  - replace (2 ^ S k) with (2 ^ k + 2 ^ k) by (simpl; lia).
    rewrite Qcpower_add. split.
    + replace 0%Qc with (0 * EPSILON_decay ^ (2 ^ k))%Qc by ring.
      by apply Qcmult_le_compat_r.
    + simpl Nat.iter. eapply Qcle_trans; [by apply square_le|].
      apply square_up_ge.
Qed.

(** Once [x * 0.9995^(2^k)] is at or below the floor, so is the rate:
    after [2^k] timer runs it is the floor. *)
Lemma rate_at_floor (k : nat) (x : Qc) :
  (EPSILON_floor <= x)%Qc →
  (x * Nat.iter k square_up EPSILON_decay <= EPSILON_floor)%Qc →
  ticks (2 ^ k) (Fin x) = Fin EPSILON_floor.
Proof.
  intros Hx Hle. rewrite ticks_closed_form by by left.
  f_equal. apply Qc_max_absorb.
  destruct (power_chain k) as [H0 Hk].
  eapply Qcle_trans; [|exact Hle].
  rewrite (Qcmult_comm x (EPSILON_decay ^ 2 ^ k)).
  rewrite (Qcmult_comm x (Nat.iter k square_up EPSILON_decay)).
  apply Qcmult_le_compat_r; [exact Hk|].
  apply Qcle_trans with EPSILON_floor; [|exact Hx]. vm_compute. discriminate.
Qed.

(** C7, as stated, fails.  The rate does reach the floor: from the default
    0.25 it is exactly 0.01 after 8192 timer runs, and a rate that starts at
    the floor (the process run with [EPSILON=0.01]) is at the floor, not
    above it, after one run.  And before the first run a rate configured
    below the floor ([EPSILON=0.001]) is below it, where
    [max(0.01, initial * 0.9995^0)] is the floor. *)
Lemma decay_reaches_floor :
  ticks (2 ^ 13) EPSILON_default = Fin EPSILON_floor
  ∧ ticks 1 (Fin EPSILON_floor) = Fin EPSILON_floor
  ∧ num_lt (Fin EPSILON_floor) (ticks 1 (Fin EPSILON_floor)) = false
  ∧ ticks 0 (Fin (Qc_of 1 1000)) = Fin (Qc_of 1 1000)
  ∧ num_lt (ticks 0 (Fin (Qc_of 1 1000))) (Fin EPSILON_floor) = true
  ∧ Qc_max EPSILON_floor (Qc_of 1 1000 * EPSILON_decay ^ 0) = EPSILON_floor.
Proof.
  split; [|repeat apply conj; compute_done].
  apply (rate_at_floor 13 (Qc_of 25 100)); vm_compute; discriminate.
Qed.

(** ** The timer and the rate *)

Lemma on_timer_ticks (n : nat) (srv : Server) :
  EPSILON (Nat.iter n on_timer srv) = ticks n (EPSILON srv)
  ∧ qtable (Nat.iter n on_timer srv) = qtable srv.
Proof.
  induction n as [|n [IHe IHq]]; [done|].
  unfold ticks in *. simpl. by rewrite IHe, IHq.
Qed.

(** ** Per-socket memory: reads after writes *)

Lemma bot_get_set (bs : BotState) (botId : string) (rec : Decision) :
  bot_get (bot_set bs botId rec) botId = SlotDecision rec.
Proof.
  unfold bot_get, bot_set.
  destruct (own bs !! botId) as [old|] eqn:Hown; simpl.
  - by rewrite lookup_insert_eq.
  - destruct (String.eqb botId "__proto__") eqn:Hp; simpl.
    + by rewrite Hown.
    + by rewrite lookup_insert_eq.
Qed.

(** Two decisions recorded in a row under one id: the second is the one
    read back. *)
Lemma record_overwrites (bs : BotState) (botId : string) (rec1 rec2 : Decision) :
  pending (bot_get (bot_set (bot_set bs botId rec1) botId rec2) botId)
  = Some rec2.
Proof. by rewrite bot_get_set. Qed.

(** Under an id other than ["__proto__"], nothing is pending once the
    decision has been deleted. *)
Lemma consume_removes (bs : BotState) (botId : string) :
  botId ≠ "__proto__" →
  pending (bot_get (bot_delete bs botId) botId) = None.
Proof.
  intros Hne. unfold bot_get, bot_delete. simpl. rewrite lookup_delete_eq.
  apply String.eqb_neq in Hne as ->.
  destruct (bool_decide (botId ∈ object_prototype_keys)); [done|].
  destruct (bool_decide (botId ∈ decision_keys)); [|done].
  by destruct (proto bs).
Qed.

(** ** Per-socket memory: the id ["__proto__"] *)

(** C5 at the bot id ["__proto__"].  On a new socket, an observation under
    that id installs its decision as the prototype of [ws._botState]; the
    reward that follows finds the decision and updates the table, its
    [delete] removes nothing, and the decision is still pending: a second
    reward finds it again and updates the table a second time. *)
Theorem proto_decision_survives_consume (ALPHA GAMMA : num) (env env' env'' : Env)
    (obs nextObs nextObs' : option Obs) (reward reward' : option num)
    (srv : Server) :
  let handle := on_message ALPHA GAMMA in
  let after_obs :=
    handle env (Obs_msg (Some "__proto__") obs) srv
      {| botState := empty_botState; sent := [] |} in
  let after_reward :=
    handle env' (Reward_msg (Some "__proto__") reward nextObs)
      after_obs.1 after_obs.2 in
  let after_second :=
    handle env'' (Reward_msg (Some "__proto__") reward' nextObs')
      after_reward.1 after_reward.2 in
  let rec :=
    {| state := discretize (obs_or_empty obs);
       actionIdx :=
         (chooseAction (discretize (obs_or_empty obs)) (random1 env)
            (random2 env) (EPSILON srv) (qtable srv)).1;
       lastObsAt := now env |} in
  pending (bot_get (botState after_obs.2) "__proto__") = Some rec
  ∧ pending (bot_get (botState after_reward.2) "__proto__") = Some rec
  ∧ qtable after_second.1
    = updateQ ALPHA GAMMA (state rec) (actionIdx rec) (reward_of reward')
        (discretize (obs_or_empty nextObs')) (qtable after_reward.1).
Proof.
  intros handle after_obs after_reward after_second rec.
  assert (botState after_obs.2 = {| own := ∅; proto := Some rec |}) as Hobs
    by done.
  assert (botState after_reward.2 = {| own := ∅; proto := Some rec |}) as Hrew.
  { subst after_reward handle. unfold on_message at 1.
    replace (bot_id (Some "__proto__")) with "__proto__" by done.
    rewrite Hobs. simpl. unfold bot_delete. simpl. by rewrite delete_empty. }
  repeat apply conj.
  - by rewrite Hobs.
  - by rewrite Hrew.
  - subst after_second handle. unfold on_message at 1.
    replace (bot_id (Some "__proto__")) with "__proto__" by done.
    by rewrite Hrew.
Qed.

(** Under any other id the tracker behaves as a map: of two observations in
    a row the second decision is the one pending, the reward that follows
    consumes it, and a second reward changes nothing. *)
Lemma ordinary_id_record_then_consume (ALPHA GAMMA : num) (env1 env2 env3 env4 : Env)
    (botId : option string) (obs1 obs2 nextObs nextObs' : option Obs)
    (reward reward' : option num) (srv : Server) (ws : Conn) :
  bot_id botId ≠ "__proto__" →
  let handle := on_message ALPHA GAMMA in
  let after_obs1 := handle env1 (Obs_msg botId obs1) srv ws in
  let after_obs2 := handle env2 (Obs_msg botId obs2) after_obs1.1 after_obs1.2 in
  let after_reward :=
    handle env3 (Reward_msg botId reward nextObs) after_obs2.1 after_obs2.2 in
  pending (bot_get (botState after_obs2.2) (bot_id botId))
  = Some {| state := discretize (obs_or_empty obs2);
            actionIdx :=
              (chooseAction (discretize (obs_or_empty obs2)) (random1 env2)
                 (random2 env2) (EPSILON after_obs1.1) (qtable after_obs1.1)).1;
            lastObsAt := now env2 |}
  ∧ pending (bot_get (botState after_reward.2) (bot_id botId)) = None
  ∧ handle env4 (Reward_msg botId reward' nextObs') after_reward.1 after_reward.2
    = after_reward.
Proof.
  intros Hid handle after_obs1 after_obs2 after_reward.
  assert (pending (bot_get (botState after_obs2.2) (bot_id botId))
          = Some {| state := discretize (obs_or_empty obs2);
                    actionIdx :=
                      (chooseAction (discretize (obs_or_empty obs2))
                         (random1 env2) (random2 env2) (EPSILON after_obs1.1)
                         (qtable after_obs1.1)).1;
                    lastObsAt := now env2 |}) as Hrec.
  { subst after_obs2 handle. simpl. by rewrite bot_get_set. }
  assert (pending (bot_get (botState after_reward.2) (bot_id botId)) = None)
    as Hnone.
  { subst after_reward handle. unfold on_message at 1. rewrite Hrec.
    simpl. by apply consume_removes. }
  repeat apply conj; [done | done |].
  subst handle. unfold on_message at 1. rewrite Hnone.
  by destruct after_reward.
Qed.

(** ** Coordinator: a reward nobody is waiting for *)

(** C4.  A reward message for a bot id under which the socket holds no
    pending decision changes nothing: the table, the exploration rate, the
    pending decisions of the socket and what was sent are as before. *)
Theorem reward_without_pending_is_noop (ALPHA GAMMA : num) (env : Env)
    (botId : option string) (reward : option num) (nextObs : option Obs)
    (srv : Server) (ws : Conn) :
  pending (bot_get (botState ws) (bot_id botId)) = None →
  on_message ALPHA GAMMA env (Reward_msg botId reward nextObs) srv ws
  = (srv, ws).
Proof. intros Hnone. simpl. by rewrite Hnone. Qed.

(** A reward for bot ["b2"] on a socket that waits for ["b1"] only. *)
Lemma reward_without_pending_is_noop_witness :
  on_message ALPHA_default GAMMA_default
    {| random1 := Qc_of 1 2; random2 := Qc_of 1 2; now := 0 |}
    (Reward_msg (Some "b2") (Some (num_of_Z 5)) None)
    {| qtable := ∅; EPSILON := EPSILON_default |}
    {| botState :=
         bot_set empty_botState "b1"
           {| state := "3|0|0|1|0"; actionIdx := 0; lastObsAt := 0 |};
       sent := [] |}
  = ({| qtable := ∅; EPSILON := EPSILON_default |},
     {| botState :=
          bot_set empty_botState "b1"
            {| state := "3|0|0|1|0"; actionIdx := 0; lastObsAt := 0 |};
        sent := [] |}).
Proof.
  refine (reward_without_pending_is_noop ALPHA_default GAMMA_default _
            (Some "b2") _ _ _ _ _).
  vm_compute. reflexivity.
Defined.

(** ** Coordinator: the reward handed to the learner *)

Lemma reward_of_not_nan (reward : option num) : is_nan (reward_of reward) = false.
Proof.
  unfold reward_of, num_or. destruct reward as [[| | |q]|]; try done.
  by destruct (num_truthy (Fin q)).
Qed.

(** C8, as the code has it.  For a reward message whose bot has a pending
    decision, the table afterwards is [updateQ] run on the decision, on
    [Number(msg.reward || 0)] and on the key of the next observation.  That
    reward is 0 when the field is missing, zero or NaN and the field itself
    otherwise: it is never NaN and a finite field gives a finite reward, but
    nothing checks that it is finite, and an infinite field is passed on as
    it is. *)
Theorem reward_coerced_not_validated (ALPHA GAMMA : num) (env : Env)
    (botId : option string) (reward : option num) (nextObs : option Obs)
    (srv : Server) (ws : Conn) (rec : Decision) :
  pending (bot_get (botState ws) (bot_id botId)) = Some rec →
  qtable (on_message ALPHA GAMMA env (Reward_msg botId reward nextObs) srv ws).1
  = updateQ ALPHA GAMMA (state rec) (actionIdx rec) (reward_of reward)
      (discretize (obs_or_empty nextObs)) (qtable srv)
  ∧ (reward = None → reward_of reward = num_of_Z 0)
  ∧ (∀ x, reward = Some x → num_truthy x = false → reward_of reward = num_of_Z 0)
  ∧ (∀ x, reward = Some x → num_truthy x = true → reward_of reward = x)
  ∧ is_nan (reward_of reward) = false
  ∧ (∀ q, reward = Some (Fin q) → is_finite (reward_of reward) = true)
  ∧ (reward = Some PInf → reward_of reward = PInf)
  ∧ (reward = Some NInf → reward_of reward = NInf).
Proof.
  intros Hrec. repeat split.
  - simpl. by rewrite Hrec.
  - by intros ->.
  - intros x -> Hx. unfold reward_of, num_or. by rewrite Hx.
  - intros x -> Hx. unfold reward_of, num_or. by rewrite Hx.
  - apply reward_of_not_nan.
  - intros q ->. unfold reward_of, num_or. by destruct (num_truthy (Fin q)).
  - by intros ->.
  - by intros ->.
Qed.

(** A reward of 5 for bot ["b1"], whose pending decision is the first
    action of ["3|0|0|1|0"]. *)
Lemma reward_coerced_not_validated_witness :
  qtable
    (on_message ALPHA_default GAMMA_default
       {| random1 := Qc_of 1 2; random2 := Qc_of 1 2; now := 0 |}
       (Reward_msg (Some "b1") (Some (num_of_Z 5)) None)
       {| qtable := ∅; EPSILON := EPSILON_default |}
       {| botState :=
            bot_set empty_botState "b1"
              {| state := "3|0|0|1|0"; actionIdx := 0; lastObsAt := 0 |};
          sent := [] |}).1
  = updateQ ALPHA_default GAMMA_default "3|0|0|1|0" 0
      (reward_of (Some (num_of_Z 5))) (discretize (obs_or_empty None)) ∅.
Proof.
  refine (proj1 (reward_coerced_not_validated ALPHA_default GAMMA_default
            {| random1 := Qc_of 1 2; random2 := Qc_of 1 2; now := 0 |}
            (Some "b1") (Some (num_of_Z 5)) None
            {| qtable := ∅; EPSILON := EPSILON_default |}
            {| botState :=
                 bot_set empty_botState "b1"
                   {| state := "3|0|0|1|0"; actionIdx := 0; lastObsAt := 0 |};
               sent := [] |}
            {| state := "3|0|0|1|0"; actionIdx := 0; lastObsAt := 0 |} _)).
  vm_compute. reflexivity.
Defined.

(** C8, as stated, fails: the reward [1e999], which [JSON.parse] reads as
    [Infinity], sent for a bot with a pending decision, is the reward
    [updateQ] is run on, and the entry it writes is [Infinity]. *)
Lemma infinite_reward_reaches_updateQ :
  reward_of (Some PInf) = PInf
  ∧ is_finite (reward_of (Some PInf)) = false
  ∧ qtable
      (on_message ALPHA_default GAMMA_default
         {| random1 := Qc_of 1 2; random2 := Qc_of 1 2; now := 0 |}
         (Reward_msg (Some "b1") (Some PInf) None)
         {| qtable := ∅; EPSILON := EPSILON_default |}
         {| botState :=
              bot_set empty_botState "b1"
                {| state := "3|0|0|1|0"; actionIdx := 0; lastObsAt := 0 |};
            sent := [] |}).1
    = updateQ ALPHA_default GAMMA_default "3|0|0|1|0" 0 PInf "0|0|4|0|0" ∅
  ∧ updateQ ALPHA_default GAMMA_default "3|0|0|1|0" 0 PInf "0|0|4|0|0" ∅
      !! "3|0|0|1|0"
    = Some [PInf; num_of_Z 0; num_of_Z 0; num_of_Z 0; num_of_Z 0; num_of_Z 0].
Proof. repeat split; compute_done. Qed.

(** ** Coordinator: the default bot id *)

(** C9.  A message whose [botId] is missing, or present and empty, is
    handled as the same message under the id ["unknown"].  So an observation
    without id leaves its decision pending under ["unknown"], and a reward
    without id that follows on the same socket finds it: the table is
    updated for that decision, and nothing is pending under ["unknown"]
    afterwards. *)
Theorem missing_botId_is_unknown (ALPHA GAMMA : num) (env env' : Env)
    (obs nextObs : option Obs) (reward : option num) (srv : Server) (ws : Conn) :
  let handle := on_message ALPHA GAMMA in
  let after_obs := handle env (Obs_msg None obs) srv ws in
  let after_reward :=
    handle env' (Reward_msg None reward nextObs) after_obs.1 after_obs.2 in
  let rec :=
    {| state := discretize (obs_or_empty obs);
       actionIdx :=
         (chooseAction (discretize (obs_or_empty obs)) (random1 env)
            (random2 env) (EPSILON srv) (qtable srv)).1;
       lastObsAt := now env |} in
  bot_id None = "unknown"
  ∧ bot_id (Some "") = "unknown"
  ∧ handle env (Obs_msg None obs) srv ws
    = handle env (Obs_msg (Some "unknown") obs) srv ws
  ∧ handle env (Obs_msg (Some "") obs) srv ws
    = handle env (Obs_msg (Some "unknown") obs) srv ws
  ∧ handle env (Reward_msg None reward nextObs) srv ws
    = handle env (Reward_msg (Some "unknown") reward nextObs) srv ws
  ∧ handle env (Reward_msg (Some "") reward nextObs) srv ws
    = handle env (Reward_msg (Some "unknown") reward nextObs) srv ws
  ∧ bot_get (botState after_obs.2) "unknown" = SlotDecision rec
  ∧ qtable after_reward.1
    = updateQ ALPHA GAMMA (state rec) (actionIdx rec) (reward_of reward)
        (discretize (obs_or_empty nextObs)) (qtable after_obs.1)
  ∧ pending (bot_get (botState after_reward.2) "unknown") = None.
Proof.
  intros handle after_obs after_reward rec.
  assert (bot_get (botState after_obs.2) "unknown" = SlotDecision rec) as Hrec.
  { subst after_obs handle. simpl. apply bot_get_set. }
  assert (after_reward
          = ({| qtable :=
                  updateQ ALPHA GAMMA (state rec) (actionIdx rec)
                    (reward_of reward) (discretize (obs_or_empty nextObs))
                    (qtable after_obs.1);
                EPSILON := EPSILON after_obs.1 |},
             {| botState := bot_delete (botState after_obs.2) "unknown";
                sent := sent after_obs.2 |})) as Hafter.
  { subst after_reward handle. unfold on_message at 1.
    replace (bot_id None) with "unknown" by done. by rewrite Hrec. }
  repeat apply conj; try done.
  - by rewrite Hafter.
  - rewrite Hafter. simpl. by apply consume_removes.
Qed.

(** ** Coordinator: an observation and the table *)

(** C10.  Handling an observation leaves every row of the table as it was;
    the one change it can make is a new row, all zeros and of length
    [ACTIONS.length], under the key of the observation when that key had no
    row. *)
Theorem obs_only_adds_zero_row (ALPHA GAMMA : num) (env : Env)
    (botId : option string) (obs : option Obs) (srv : Server) (ws : Conn) :
  let key := discretize (obs_or_empty obs) in
  let qtable' := qtable (on_message ALPHA GAMMA env (Obs_msg botId obs) srv ws).1 in
  (∀ k row, qtable srv !! k = Some row → qtable' !! k = Some row)
  ∧ (∀ k, k ≠ key → qtable' !! k = qtable srv !! k)
  ∧ (qtable srv !! key = None →
     qtable' !! key = Some (replicate (length ACTIONS) (num_of_Z 0))).
Proof.
  intros key qtable'.
  assert (qtable' = ensureState key (qtable srv)) as ->.
  { subst qtable'. simpl. unfold chooseAction.
    by destruct (num_lt (Fin (random1 env)) (EPSILON srv)). }
  repeat apply conj.
  - intros k row Hk. destruct (decide (key = k)) as [->|Hne].
    + rewrite ensureState_lookup. unfold row_of. by rewrite Hk.
    + by rewrite ensureState_lookup_ne.
  - intros k Hne. by rewrite ensureState_lookup_ne.
  - intros Hnone. rewrite ensureState_lookup. unfold row_of. by rewrite Hnone.
Qed.

(** ** Coordinator: the invariant of the data model *)

Lemma scan_bound (qvals : list num) (i bestIdx : nat) (bestV : num) :
  scan qvals i bestIdx bestV = bestIdx
  ∨ i ≤ scan qvals i bestIdx bestV < i + length qvals.
Proof.
  revert i bestIdx bestV. induction qvals as [|v rest IH]; intros i bestIdx bestV.
  - by left.
  - simpl. destruct (num_gt v bestV).
    + right. destruct (IH (S i) i v) as [-> | ?]; lia.
    + destruct (IH (S i) bestIdx bestV) as [-> | ?]; [by left | right; lia].
Qed.

Lemma random_index_bound (u : Qc) : unit_draw u → random_index u < length ACTIONS.
Proof.
  intros [H0 H1]. unfold random_index.
  change (length ACTIONS) with 6.
  set (z := Qfloor (u * Qc_of (Z.of_nat 6) 1)%Qc).
  assert (z < 6)%Z as Hlt; [|lia].
  rewrite Zlt_Qlt. eapply Qle_lt_trans; [apply Qfloor_le|].
  rewrite <- (this_Qc_of_Z 6).
  change (u * Qc_of 6 1 < Qc_of 6 1)%Qc.
  replace (Qc_of 6 1) with (1 * Qc_of 6 1)%Qc at 2
    by (apply Qc_is_canon; reflexivity).
  apply Qcmult_lt_compat_r; [by vm_compute | done].
Qed.

Lemma ensureState_wf (key : string) (qtable : QTable) :
  wf_table qtable → wf_table (ensureState key qtable).
Proof.
  intros Hwf k row. destruct (decide (key = k)) as [->|Hne].
  - rewrite ensureState_lookup. intros [= <-]. by apply row_of_length, Hwf.
  - rewrite ensureState_lookup_ne by done. apply Hwf.
Qed.

Lemma chooseAction_wf (key : string) (u1 u2 : Qc) (eps : num) (qtable : QTable) :
  unit_draw u2 → wf_table qtable →
  (chooseAction key u1 u2 eps qtable).1 < length ACTIONS
  ∧ wf_table (chooseAction key u1 u2 eps qtable).2.
Proof.
  intros Hu Hwf. unfold chooseAction.
  destruct (num_lt (Fin u1) eps); simpl.
  - split; [by apply random_index_bound | by apply ensureState_wf].
  - split; [|by apply ensureState_wf].
    rewrite lookup_total_row_of, ensureState_row_of
      by (rewrite ensureState_lookup; eauto).
    assert (length (row_of qtable key) = length ACTIONS) as Hlen
      by by apply row_of_length, Hwf.
    change (length ACTIONS) with 6 in *.
    destruct (scan_bound (row_of qtable key) 0 0 NInf) as [-> | ?]; lia.
Qed.

Lemma updateQ_wf (ALPHA GAMMA : num) (s : string) (a : nat) (r : num)
    (sNext : string) (qtable : QTable) :
  a < length ACTIONS → wf_table qtable →
  wf_table (updateQ ALPHA GAMMA s a r sNext qtable).
Proof.
  intros Ha Hwf k row. rewrite updateQ_unfold.
  assert (length (row_of qtable s) = length ACTIONS) as Hlen
    by by apply row_of_length, Hwf.
  destruct (decide (s = k)) as [->|Hne].
  - rewrite lookup_insert_eq. intros [= <-].
    rewrite array_set_in_range by lia. by rewrite length_insert.
  - rewrite lookup_insert_ne by done. by apply ensureState_wf, ensureState_wf.
Qed.

Lemma bot_set_wf (bs : BotState) (botId : string) (rec : Decision) :
  actionIdx rec < length ACTIONS → wf_botState bs →
  wf_botState (bot_set bs botId rec).
Proof.
  intros Hrec [Hown Hproto]. unfold bot_set.
  assert (∀ b r, <[botId := rec]> (own bs) !! b = Some r →
                 actionIdx r < length ACTIONS) as Hins.
  { intros b r. destruct (decide (botId = b)) as [->|Hne].
    - rewrite lookup_insert_eq. by intros [= <-].
    - rewrite lookup_insert_ne by done. apply Hown. }
  destruct (own bs !! botId); [by split|].
  destruct (String.eqb botId "__proto__"); split; simpl; try done.
  by intros r [= <-].
Qed.

Lemma bot_delete_wf (bs : BotState) (botId : string) :
  wf_botState bs → wf_botState (bot_delete bs botId).
Proof.
  intros [Hown Hproto]. split; simpl; [|done].
  intros b r Hb. apply lookup_delete_Some in Hb as [_ Hb]. by eapply Hown.
Qed.

Lemma pending_wf (bs : BotState) (botId : string) (rec : Decision) :
  wf_botState bs → pending (bot_get bs botId) = Some rec →
  actionIdx rec < length ACTIONS.
Proof.
  intros [Hown Hproto]. unfold bot_get.
  destruct (own bs !! botId) as [old|] eqn:Ho; simpl.
  - intros [= <-]. by eapply Hown.
  - destruct (String.eqb botId "__proto__").
    + destruct (proto bs) as [p|] eqn:Hp; simpl; [|done].
      intros [= <-]. by apply Hproto.
    + destruct (bool_decide (botId ∈ object_prototype_keys)); [done|].
      destruct (bool_decide (botId ∈ decision_keys)); [|done].
      by destruct (proto bs).
Qed.

(** A message keeps the invariant of the data model, and leaves the
    exploration rate alone. *)
Lemma on_message_invariant (ALPHA GAMMA : num) (env : Env) (msg : Msg)
    (srv : Server) (ws : Conn) :
  unit_draw (random2 env) →
  wf_table (qtable srv) → wf_botState (botState ws) →
  wf_table (qtable (on_message ALPHA GAMMA env msg srv ws).1)
  ∧ wf_botState (botState (on_message ALPHA GAMMA env msg srv ws).2)
  ∧ EPSILON (on_message ALPHA GAMMA env msg srv ws).1 = EPSILON srv.
Proof.
  intros Hu Hqt Hbs. destruct msg as [b o | b r o | | |]; simpl; try done.
  - destruct (chooseAction_wf (discretize (obs_or_empty o)) (random1 env)
                (random2 env) (EPSILON srv) (qtable srv) Hu Hqt) as [Hidx Hwf].
    split; [done|]. split; [by apply bot_set_wf | done].
  - destruct (pending (bot_get (botState ws) (bot_id b))) as [rec|] eqn:Hrec;
      simpl; [|done].
    split; [|split; [by apply bot_delete_wf | done]].
    apply updateQ_wf; [|done]. by eapply pending_wf.
Qed.

(** ** The scenario of the specification *)

(** The observation [{hp: 80, ammo: 0, dist: 5, inZone: true,
    hasKnife: false}] of bot ["b1"] on an empty table, no exploration drawn:
    key ["3|0|0|1|0"], first action; then the reward 5 with the same
    observation: the entry becomes [0 + 0.12 * (5 + 0.96 * 0 - 0) = 0.6] and
    nothing is pending. *)
Example scenario_obs_then_reward :
  let obs :=
    {| hp := Some (num_of_Z 80); ammo := Some (num_of_Z 0);
       dist := Some (num_of_Z 5); inZone := JBool true;
       hasKnife := JBool false |} in
  let env := {| random1 := Qc_of 1 2; random2 := Qc_of 1 2; now := 0 |} in
  let handle := on_message ALPHA_default GAMMA_default env in
  let after_obs :=
    handle (Obs_msg (Some "b1") (Some obs))
      {| qtable := ∅; EPSILON := EPSILON_default |}
      {| botState := empty_botState; sent := [] |} in
  let after_reward :=
    handle (Reward_msg (Some "b1") (Some (num_of_Z 5)) (Some obs))
      after_obs.1 after_obs.2 in
  discretize obs = "3|0|0|1|0"
  ∧ sent after_obs.2 = [Action_out "b1" (Some "MOVE_TO_PLAYER")]
  ∧ qtable after_reward.1 !! "3|0|0|1|0"
    = Some [Fin (Qc_of 6 10); num_of_Z 0; num_of_Z 0; num_of_Z 0;
            num_of_Z 0; num_of_Z 0]
  ∧ botState after_reward.2 = empty_botState.
Proof. repeat apply conj; compute_done. Qed.
